(** * treex.optimizer: the [Optimizer] adapter over an optax gradient transformation

    A shallow embedding of [src/treex/optimizer.py].

    - Pytrees are kept the way JAX sees them: a leaf, or a node made of
      node data (container type plus auxiliary data) and a list of children.
    - Adapter instances are Python objects with identity; they live in a
      store addressed by references, and the two methods are written in a
      small state-and-exception monad over that store.
    - Array leaves are idealised as exact rationals.
    - [treex/tree_object.py] ([TreeObject.copy], [annotation_map],
      [module_update]) is outside the excerpt; the three are written from
      what the specification says of them and are marked as such. *)

From Stdlib Require Import QArith.
From stdpp Require Import base option list strings gmap.

Set Default Proof Using "Type".

(** ** Exceptions *)

Inductive exn : Type :=
| AssertionError
| ValueError (msg : string)
| TreeError                (* raised by a tree (un)flattening step *)
| LibraryError (e : string) (* anything the wrapped library raises *)
| DanglingReference.        (* no Python counterpart: a reference that
                               denotes no object; keeps the model total *)

Definition result (A : Type) : Type := exn + A.

Definition result_bind {A B} (r : result A) (k : A → result B) : result B :=
  match r with
  | inl e => inl e
  | inr a => k a
  end.

Definition result_map {A B} (f : A → B) (r : result A) : result B :=
  result_bind r (λ a, inr (f a)).

(** ** Pytrees *)

(** [types.OptState] and its siblings are the kinds a field of a
    [TreeObject] can be annotated with; only their names matter here. *)
Definition annotation : Type := string.

Module types.
Definition OptState : annotation := "OptState".
End types.

Inductive node_data : Type :=
| PyTuple
| PyDict (keys : list string)
| PyTreeObject (cls : string) (fields : list (string * annotation)).

Global Instance node_data_eq_dec : EqDecision node_data.
Proof. solve_decision. Defined.

Section pytree.
Context {A : Type}.

Local Unset Elimination Schemes.

Inductive pytree : Type :=
| Leaf (x : A)
| Node (d : node_data) (children : list pytree).

Section induction.
Variable P : pytree → Prop.
Hypothesis HLeaf : ∀ x, P (Leaf x).
Hypothesis HNode : ∀ d ts, Forall P ts → P (Node d ts).

Fixpoint pytree_induction (t : pytree) : P t :=
  match t with
  | Leaf x => HLeaf x
  | Node d ts =>
      HNode d ts
        ((fix all (l : list pytree) : Forall P l :=
            match l with
            | [] => List.Forall_nil P
            | t' :: l' => List.Forall_cons P t' l' (pytree_induction t') (all l')
            end) ts)
  end.
End induction.
End pytree.

Global Arguments pytree : clear implicits.

(** A tree definition is a tree whose leaves carry nothing. *)
Definition PyTreeDef : Type := pytree unit.

Fixpoint tree_map {A B} (f : A → B) (t : pytree A) : pytree B :=
  match t with
  | Leaf x => Leaf (f x)
  | Node d ts => Node d (map (tree_map f) ts)
  end.

Definition tree_structure {A} (t : pytree A) : PyTreeDef :=
  tree_map (λ _, tt) t.

Fixpoint tree_leaves {A} (t : pytree A) : list A :=
  match t with
  | Leaf x => [x]
  | Node _ ts => concat (map tree_leaves ts)
  end.

Definition leaf_count {A} (t : pytree A) : nat := length (tree_leaves t).

(** Rebuild the children of a node one after the other, threading the
    leaves that are left. *)
Definition unflatten_children {A}
    (rec : PyTreeDef → list A → option (pytree A * list A))
  : list PyTreeDef → list A → option (list (pytree A) * list A) :=
  fix go defs xs :=
    match defs with
    | [] => Some ([], xs)
    | def :: defs' =>
        match rec def xs with
        | Some (t, rest) =>
            match go defs' rest with
            | Some (ts, rest') => Some (t :: ts, rest')
            | None => None
            end
        | None => None
        end
    end.

(** Rebuild a tree from a definition, consuming leaves from the front of
    [xs]; the unused leaves are returned. *)
Fixpoint unflatten_from {A} (def : PyTreeDef) (xs : list A)
  : option (pytree A * list A) :=
  match def with
  | Leaf _ =>
      match xs with
      | x :: rest => Some (Leaf x, rest)
      | [] => None
      end
  | Node d defs =>
      match unflatten_children unflatten_from defs xs with
      | Some (ts, rest) => Some (Node d ts, rest)
      | None => None
      end
  end.

(** [jax.tree_unflatten]: fails unless the leaves are used up exactly. *)
Definition tree_unflatten {A} (def : PyTreeDef) (xs : list A)
  : result (pytree A) :=
  match unflatten_from def xs with
  | Some (t, []) => inr t
  | _ => inl TreeError
  end.

Definition all2 {A B} (p : A → B → bool) : list A → list B → bool :=
  fix go l1 l2 :=
    match l1, l2 with
    | [], [] => true
    | x :: l1', y :: l2' => p x y && go l1' l2'
    | _, _ => false
    end.

(** Two trees have the same definition: same node data at every node,
    leaves in the same places. *)
Fixpoint same_structure {A B} (a : pytree A) (b : pytree B) : bool :=
  match a, b with
  | Leaf _, Leaf _ => true
  | Node d1 ts1, Node d2 ts2 =>
      bool_decide (d1 = d2) && all2 same_structure ts1 ts2
  | _, _ => false
  end.

(** [jax.tree_map] over two trees: both must have the same definition. *)
Definition tree_map2 {A B C} (f : A → B → C) (a : pytree A) (b : pytree B)
  : result (pytree C) :=
  if same_structure a b
  then tree_unflatten (tree_structure a)
         (zip_with f (tree_leaves a) (tree_leaves b))
  else inl TreeError.

(** ** treex.tree_object *)

Module tree_object.

Definition map_node_data (f : annotation → annotation) (d : node_data)
  : node_data :=
  match d with
  | PyTreeObject cls fields =>
      PyTreeObject cls (map (λ fa, (fa.1, f fa.2)) fields)
  | _ => d
  end.

(** Modelled from the spec: [annotation_map] of [treex/tree_object.py],
    which is not part of the excerpt. It rewrites the annotation of every
    field of every [TreeObject] inside the tree (the "annotation
    remapping" of the source note) and touches neither the shape nor the
    leaves. *)
Fixpoint annotation_map {A} (f : annotation → annotation) (t : pytree A)
  : pytree A :=
  match t with
  | Leaf x => Leaf x
  | Node d ts => Node (map_node_data f d) (map (annotation_map f) ts)
  end.

(** Modelled from the spec: [module_update] of [treex/tree_object.py],
    which is not part of the excerpt. The result keeps the tree definition
    of [module], wrappers and annotations included, and takes its leaves
    from [other]; this is the "tree-reconstruction step", and it raises
    when [other] does not supply exactly the leaves [module] needs. *)
Definition module_update {A} (module other : pytree A) : result (pytree A) :=
  tree_unflatten (tree_structure module) (tree_leaves other).

End tree_object.

(** ** optax *)

Definition tree : Type := pytree Q.

Module optax.

(** A gradient transformation is a pair of functions supplied by the
    caller; either may raise, and the state either hands back may be
    Python's [None], which the adapter stores like any other. *)
Record GradientTransformation : Type := {
  init : tree → result (option tree);
  update : tree → tree → option tree → result (tree * option tree);
}.

(** [optax.apply_updates(params, updates)]: [p + u] leaf by leaf. With no
    parameter tree there is nothing to add the updates to. *)
Definition apply_updates (params : option tree) (updates : tree)
  : result tree :=
  match params with
  | Some params => tree_map2 Qplus params updates
  | None => inl TreeError
  end.

End optax.

(** ** The store of adapter objects *)

Record Optimizer : Type := {
  opt_state : option tree;
  optimizer : optax.GradientTransformation;
  _initialized : bool;
}.

(** References are positions in the store; objects are never freed. *)
Abbreviation ref := nat (only parsing).
Abbreviation store := (list Optimizer) (only parsing).

Definition M (A : Type) : Type := store → result A * store.

Definition ret {A} (a : A) : M A := λ h, (inr a, h).
Definition raise {A} (e : exn) : M A := λ h, (inl e, h).

Definition bind {A B} (m : M A) (k : A → M B) : M B :=
  λ h, match m h with
       | (inr a, h') => k a h'
       | (inl e, h') => (inl e, h')
       end.

Definition lift {A} (r : result A) : M A := λ h, (r, h).

Global Instance M_ret : MRet M := @ret.
Global Instance M_bind : MBind M := λ A B k m, bind m k.

Definition load (r : ref) : M Optimizer :=
  λ h, match h !! r with
       | Some o => (inr o, h)
       | None => (inl DanglingReference, h)
       end.

Definition alloc (o : Optimizer) : M ref :=
  λ h, (inr (length h), h ++ [o]).

Definition modify (r : ref) (f : Optimizer → Optimizer) : M unit :=
  λ h, match h !! r with
       | Some o => (inr tt, <[r := f o]> h)
       | None => (inl DanglingReference, h)
       end.

Definition set_opt_state (s : option tree) (o : Optimizer) : Optimizer :=
  {| opt_state := s; optimizer := optimizer o; _initialized := _initialized o |}.

Definition set_initialized (b : bool) (o : Optimizer) : Optimizer :=
  {| opt_state := opt_state o; optimizer := optimizer o; _initialized := b |}.

(** ** class Optimizer *)

Definition initialized (self : ref) : M bool :=
  o ← load self; ret (_initialized o).

(** [Optimizer.__init__]: a new object with no state; [_initialized] is the
    class default [False]. *)
Definition __init__ (optimizer : optax.GradientTransformation) : M ref :=
  alloc {| opt_state := None; optimizer := optimizer; _initialized := false |}.

(** Modelled from the spec: [TreeObject.copy] of [treex/tree_object.py],
    which is not part of the excerpt: a value copy, that is a new object
    with the fields of the receiver. *)
Definition copy (self : ref) : M ref :=
  o ← load self; alloc o.

(** [x is None] *)
Definition is_None {A} (x : option A) : bool :=
  match x with
  | None => true
  | Some _ => false
  end.

Definition to_opt_state (t : tree) : tree :=
  tree_object.annotation_map (λ _, types.OptState) t.

(** [Optimizer.init] (lines 66-80): every write goes to the copy. *)
Definition init (self : ref) (params : tree) : M ref :=
  module ← copy self;
  let params := to_opt_state params in
  o ← load module;
  s ← lift (optax.init (optimizer o) params);
  modify module (set_opt_state s);;
  modify module (set_initialized true);;
  ret module.

Definition missing_params : string :=
  "params must be provided if updates are being applied".

(** [Optimizer.apply_updates] (lines 86-120). The assertion comes first,
    the check on [params] second; the state is assigned when the wrapped
    [update] has returned, before the output is built. *)
Definition apply_updates (self : ref) (grads : tree) (params : option tree)
    (return_updates : bool) : M tree :=
  o ← load self;
  match opt_state o with
  | None => raise AssertionError
  | Some s0 =>
      if negb return_updates && is_None params
      then raise (ValueError missing_params)
      else
        let opt_grads := to_opt_state grads in
        let opt_params := to_opt_state <$> params in
        ' (param_updates, s1) ← lift (optax.update (optimizer o) opt_grads s0 opt_params);
        modify self (set_opt_state s1);;
        output ← (if return_updates
                  then ret param_updates
                  else lift (optax.apply_updates opt_params param_updates));
        lift (tree_object.module_update grads output)
  end.


(** ** Wrapped transformations used in the examples *)

(** Modelled from the spec: "a transformation equivalent to plain gradient
    descent with a fixed step size" (the wrapped library is external). It
    keeps no state, which optax represents by an empty tuple, and its deltas
    are the gradients scaled by the negated step size. *)
Definition sgd (step_size : Q) : optax.GradientTransformation := {|
  optax.init := λ _, inr (Some (Node PyTuple []));
  optax.update := λ grads state _,
    inr (tree_map (Qmult (Qopp step_size)) grads, Some state);
|}.

(** Modelled from the spec: a "stateful (e.g., momentum-based)"
    transformation, after [optax.trace]: the state is one accumulator per
    parameter, started at zero; each step adds the gradient to the decayed
    accumulator and returns the new accumulator as the deltas. *)
Definition trace (decay : Q) : optax.GradientTransformation := {|
  optax.init := λ params, inr (Some (tree_map (λ _, 0%Q) params));
  optax.update := λ grads state _,
    result_map (λ t, (t, Some t))
      (tree_map2 (λ g t, Qplus g (Qmult decay t)) grads state);
|}.

(** A hand-written transformation that keeps no state and says so with
    [None]: the deltas are the gradients as they come. *)
Definition stateless : optax.GradientTransformation := {|
  optax.init := λ _, inr None;
  optax.update := λ grads _ _, inr (grads, None);
|}.

(** The wrapped [init] does not look at field annotations: it commutes
    with any re-annotation of its argument. Transformations written with
    [jax.tree_map], as those of optax are, have this property. *)
Definition annotation_agnostic_init (tx : optax.GradientTransformation) : Prop :=
  ∀ f params,
    optax.init tx (tree_object.annotation_map f params)
    = result_map (fmap (tree_object.annotation_map f)) (optax.init tx params).

(** [{"w": x}] *)
Definition dict_w (x : Q) : tree := Node (PyDict ["w"]) [Leaf x].

(** A [TreeObject] with two array fields annotated as parameters. *)
Definition Linear (w b : Q) : tree :=
  Node (PyTreeObject "Linear" [("w", "Parameter"); ("b", "Parameter")])
    [Leaf w; Leaf b].

(** An initialised adapter over [trace], holding one accumulator per field
    of a [Linear] object. *)
Definition traced : Optimizer := {|
  opt_state := Some (to_opt_state (Linear 1 2));
  optimizer := trace 1;
  _initialized := true;
|}.

(** The example scenario: construct, [init], one [apply_updates]; the
    state is read before and after the step. *)
Definition gradient_descent_scenario (step_size : Q)
  : M (option tree * tree * option tree) :=
  optimizer ← __init__ (sgd step_size);
  optimizer ← init optimizer (dict_w 0);
  before ← load optimizer;
  output ← apply_updates optimizer (dict_w 1) (Some (dict_w 0)) false;
  after ← load optimizer;
  ret (opt_state before, output, opt_state after).

(** ** Call sequences *)

Inductive call : Type :=
| New (tx : optax.GradientTransformation)
| Init (self : ref) (params : tree)
| ApplyUpdates (self : ref) (grads : tree) (params : option tree)
    (return_updates : bool).

(** How a reference came to the caller. *)
Inductive origin : Type :=
| Constructed   (* returned by [Optimizer(...)] *)
| Initialised.  (* returned by [init] *)

(** A client state: the store, and the references handed to the caller so
    far, each with its origin. A call that raises hands out nothing. *)
Definition client : Type := store * list (ref * origin).

Definition exec (st : client) (c : call) : client :=
  match c with
  | New tx =>
      match __init__ tx st.1 with
      | (inr r, h) => (h, (r, Constructed) :: st.2)
      | (inl _, h) => (h, st.2)
      end
  | Init self params =>
      match init self params st.1 with
      | (inr r, h) => (h, (r, Initialised) :: st.2)
      | (inl _, h) => (h, st.2)
      end
  | ApplyUpdates self grads params return_updates =>
      ((apply_updates self grads params return_updates st.1).2, st.2)
  end.

Definition run (cs : list call) : client := foldl exec ([], []) cs.

(** An object that holds a state has its flag set. *)
Definition consistent (o : Optimizer) : Prop :=
  is_Some (opt_state o) → _initialized o = true.

Definition matches_origin (og : origin) (o : Optimizer) : Prop :=
  match og with
  | Constructed => opt_state o = None ∧ _initialized o = false
  | Initialised => _initialized o = true
  end.

(** How much wrapper metadata a tree carries: the number of its
    [TreeObject] nodes. *)
Fixpoint tree_objects {A} (t : pytree A) : nat :=
  match t with
  | Leaf _ => 0
  | Node d ts =>
      match d with
      | PyTreeObject _ _ => 1
      | _ => 0
      end + sum_list (map tree_objects ts)
  end.


(** What holds of every client state that calls can lead to. *)
Definition client_invariant (st : client) : Prop :=
  Forall consistent st.1
  ∧ ∀ r og, (r, og) ∈ st.2 → ∃ o, st.1 !! r = Some o ∧ matches_origin og o.

(** The references handed out are distinct and denote objects. *)
Definition distinct_references (st : client) : Prop :=
  NoDup st.2.*1 ∧ Forall (λ r, r < length st.1) st.2.*1.

(** ** The code generator: the helpers and the [__main__] block *)

(** What the generator asks of [inspect]: objects, their signatures, the
    return annotation of a signature, and the type it is compared with. *)
Class Inspect : Type := {
  py_object : Type;
  Signature : Type;
  py_type : Type;
  py_type_eq_dec :: EqDecision py_type;
  isfunction : py_object → bool;
  signature : py_object → Signature;
  return_annotation : Signature → py_type;
  GradientTransformationType : py_type;
}.

(** [_all_gradient_transformation] (lines 154-167), over the members that
    [inspect.getmembers(optax)] lists. *)
Definition _all_gradient_transformation `{Inspect}
    (members : list (string * py_object))
  : gmap string (py_object * Signature) :=
  foldl
    (λ _gradient_transformation member,
       let '(name, obj) := member in
       if isfunction obj then
         let signature := signature obj in
         let ret_type := return_annotation signature in
         if bool_decide (ret_type = GradientTransformationType)
         then <[name := (obj, signature)]> _gradient_transformation
         else _gradient_transformation
       else _gradient_transformation)
    ∅ members.

(** A stand-in for [inspect] in examples: an object is either a function,
    known by the name of its return annotation, or something else. *)
Definition example_inspect : Inspect := {|
  py_object := option string;
  Signature := string;
  py_type := string;
  isfunction := λ obj, bool_decide (is_Some obj);
  signature := λ obj, default "" obj;
  return_annotation := λ sig, sig;
  GradientTransformationType := "GradientTransformation";
|}.

Inductive script_exn : Type :=
| RuntimeError (msg : string).

Definition newline : Ascii.ascii := Ascii.ascii_of_nat 10.

(** [s.replace("\n", new)] *)
Fixpoint replace_newline (new s : string) : string :=
  match s with
  | EmptyString => EmptyString
  | String c s' =>
      if bool_decide (c = newline)
      then new +:+ replace_newline new s'
      else String c (replace_newline new s')
  end.

(** [_correct_doc] (lines 211-212): a newline followed by six spaces. *)
Definition _correct_doc (doc : string) : string :=
  replace_newline (String newline "      ") doc.

(** The lines of a text, cut at every newline. *)
Fixpoint split_newline (s : string) : list string :=
  match s with
  | EmptyString => [EmptyString]
  | String c s' =>
      if bool_decide (c = newline) then EmptyString :: split_newline s'
      else
        match split_newline s' with
        | line :: lines => String c line :: lines
        | [] => [String c EmptyString]
        end
  end.

(** [sub in s] *)
Fixpoint str_contains (sub s : string) : bool :=
  String.prefix sub s ||
  match s with
  | EmptyString => false
  | String _ s' => str_contains sub s'
  end.

Definition CODEGEN_START : string := "<<<CODEGEN START>>>".
Definition CODEGEN_END : string := "<<<CODEGEN END>>>".

(** One turn of the loop of lines 230-234 on [(idx_start, idx_end)]. *)
Definition find_markers_step (st : Z * Z) (idx : nat) (line : string) : Z * Z :=
  let '(idx_start, idx_end) := st in
  if str_contains CODEGEN_START line && bool_decide (idx_start = (-1)%Z)
  then (Z.of_nat idx, idx_end)
  else if str_contains CODEGEN_END line && bool_decide (idx_end = (-1)%Z)
  then (idx_start, Z.of_nat idx)
  else st.

(** [for idx, line in enumerate(lines)], from position [idx] on. *)
Fixpoint find_markers_from (idx : nat) (lines : list string) (st : Z * Z)
  : Z * Z :=
  match lines with
  | [] => st
  | line :: rest =>
      find_markers_from (S idx) rest (find_markers_step st idx line)
  end.

(** Lines 227-239: find the two markers and put [gen_lines] between them. *)
Definition regenerate (lines gen_lines : list string)
  : script_exn + list string :=
  let '(idx_start, idx_end) := find_markers_from 0 lines (-1, -1)%Z in
  if bool_decide (idx_start < 0)%Z || bool_decide (idx_end < 0)%Z
  then inl (RuntimeError "Cannot find codegen start/end")
  else inr (take (Z.to_nat (idx_start + 1)) lines
            ++ gen_lines
            ++ drop (Z.to_nat idx_end) lines).

Definition has_start (line : string) : Prop :=
  str_contains CODEGEN_START line = true.
Definition has_end (line : string) : Prop :=
  str_contains CODEGEN_END line = true.

(** * Properties of pytrees *)

Lemma tree_structure_Node {A} d (ts : list (pytree A)) :
  tree_structure (Node d ts) = Node d (map tree_structure ts).
Proof. reflexivity. Qed.

Section pytree_facts.
Context {A : Type}.
Implicit Types (t : pytree A) (def : PyTreeDef) (xs : list A).

Lemma tree_structure_idem t :
  tree_structure (tree_structure t) = tree_structure t.
Proof.
  induction t as [x|d ts IH] using pytree_induction; [done|].
  rewrite !tree_structure_Node, map_map. f_equal.
  induction IH as [|t ts Ht _ IHts]; [done|]. cbn. by rewrite Ht, IHts.
Qed.

Lemma leaf_count_structure t : leaf_count (tree_structure t) = leaf_count t.
Proof.
  unfold leaf_count.
  induction t as [x|d ts IH] using pytree_induction; [done|].
  rewrite tree_structure_Node. cbn. rewrite map_map.
  induction IH as [|t ts Ht _ IHts]; [done|].
  cbn. rewrite !length_app. by rewrite Ht, IHts.
Qed.


(** Unflattening a definition with as many leaves as it has holes
    succeeds, and the tree built has that definition and those leaves. *)
Lemma unflatten_from_exact def xs rest :
  length xs = leaf_count def →
  ∃ t, unflatten_from def (xs ++ rest) = Some (t, rest)
       ∧ tree_structure t = def ∧ tree_leaves t = xs.
Proof.
  unfold leaf_count. revert xs rest.
  induction def as [[]|d defs IH] using pytree_induction; intros xs rest Hlen.
  - destruct xs as [|x [|??]]; try done. by exists (Leaf x).
  - cbn in Hlen. cbn.
    assert (∃ ts, unflatten_children unflatten_from defs (xs ++ rest)
                    = Some (ts, rest)
                  ∧ map tree_structure ts = defs
                  ∧ concat (map tree_leaves ts) = xs) as (ts & -> & Hs & Hl).
    { revert xs Hlen. induction IH as [|def defs Hdef _ IHdefs]; intros xs Hlen.
      - destruct xs; [|done]. by exists [].
      - cbn in Hlen. rewrite length_app in Hlen.
        destruct (Hdef (take (length (tree_leaves def)) xs)
                    (drop (length (tree_leaves def)) xs ++ rest))
          as (t & Ht & Hts & Htl).
        { rewrite length_take. lia. }
        destruct (IHdefs (drop (length (tree_leaves def)) xs))
          as (ts & Hgo & Hss & Hls).
        { rewrite length_drop. lia. }
        exists (t :: ts).
        rewrite app_assoc, take_drop in Ht. cbn. rewrite Ht, Hgo.
        split; [done|]. rewrite Hts, Hss, Htl, Hls.
        by rewrite take_drop. }
    exists (Node d ts). by rewrite tree_structure_Node, Hs, <- Hl.
Qed.


Lemma tree_unflatten_exact def xs :
  length xs = leaf_count def →
  ∃ t, tree_unflatten def xs = inr t
       ∧ tree_structure t = def ∧ tree_leaves t = xs.
Proof.
  intros Hlen. destruct (unflatten_from_exact def xs [] Hlen) as (t & Ht & ?).
  exists t. unfold tree_unflatten. rewrite app_nil_r in Ht. by rewrite Ht.
Qed.

Lemma same_structure_spec {B} t (u : pytree B) :
  same_structure t u = true ↔ tree_structure t = tree_structure u.
Proof.
  revert u. induction t as [x|d ts IH] using pytree_induction; intros [y|d' us];
    rewrite ?tree_structure_Node; cbn; try done.
  rewrite andb_true_iff, bool_decide_eq_true.
  assert (all2 same_structure ts us = true
          ↔ map tree_structure ts = map tree_structure us) as ->.
  { revert us. induction IH as [|t ts Ht _ IHts]; intros [|u us]; cbn; try done.
    rewrite andb_true_iff, Ht, IHts. split; [by intros [-> ->]|].
    intros [= -> ->]. done. }
  split; [by intros [-> ->]|]. by intros [= -> ->].
Qed.

End pytree_facts.

Lemma structure_leaf_count {A B} (t : pytree A) (u : pytree B) :
  tree_structure t = tree_structure u → leaf_count t = leaf_count u.
Proof.
  intros E. by rewrite <- (leaf_count_structure t), E, leaf_count_structure.
Qed.

Section unflatten_sound.
Context {A : Type}.

(** Whatever [unflatten_from] builds has the requested definition, and
    its leaves are the ones taken from the front of the input. *)
Lemma unflatten_from_sound (def : PyTreeDef) (xs rest : list A) t :
  unflatten_from def xs = Some (t, rest) →
  tree_structure t = def ∧ xs = tree_leaves t ++ rest.
Proof.
  revert xs rest t.
  induction def as [[]|d defs IH] using pytree_induction; intros xs rest t.
  - destruct xs as [|x xs]; [done|]. by intros [= <- <-].
  - cbn.
    destruct (unflatten_children unflatten_from defs xs) as [[ts rest']|] eqn:E;
      [|done].
    intros [= <- <-]. rewrite tree_structure_Node. cbn.
    enough (map tree_structure ts = defs
            ∧ xs = concat (map tree_leaves ts) ++ rest') as [-> ->]; [done|].
    revert xs ts E.
    induction IH as [|def defs Hdef _ IHdefs]; intros xs ts; cbn.
    + by intros [= <- <-].
    + destruct (unflatten_from def xs) as [[t r1]|] eqn:E1; [|done].
      destruct (unflatten_children unflatten_from defs r1) as [[ts' r2]|] eqn:E2;
        [|done].
      intros [= <- <-].
      destruct (Hdef _ _ _ E1) as [<- ->].
      destruct (IHdefs _ _ E2) as [<- ->].
      cbn. by rewrite app_assoc.
Qed.

Lemma tree_unflatten_sound (def : PyTreeDef) (xs : list A) t :
  tree_unflatten def xs = inr t →
  tree_structure t = def ∧ tree_leaves t = xs.
Proof.
  unfold tree_unflatten.
  destruct (unflatten_from def xs) as [[t' [|??]]|] eqn:E; try done.
  intros [= <-]. destruct (unflatten_from_sound _ _ _ _ E) as [-> ->].
  by rewrite app_nil_r.
Qed.
End unflatten_sound.

(** ** [annotation_map] leaves shape and leaves alone *)

Section annotation_map_facts.
Context {A : Type}.
Implicit Types (t : pytree A) (f g : annotation → annotation).
Import tree_object.

Lemma tree_leaves_annotation_map f t :
  tree_leaves (annotation_map f t) = tree_leaves t.
Proof.
  induction t as [x|d ts IH] using pytree_induction; [done|].
  cbn. rewrite map_map. f_equal.
  induction IH as [|t ts Ht _ IHts]; [done|]. cbn. by rewrite Ht, IHts.
Qed.

Lemma map_node_data_compose f g d :
  map_node_data f (map_node_data g d) = map_node_data (f ∘ g) d.
Proof. destruct d; cbn; [done..|]. by rewrite map_map. Qed.

Lemma annotation_map_compose f g t :
  annotation_map f (annotation_map g t) = annotation_map (f ∘ g) t.
Proof.
  induction t as [x|d ts IH] using pytree_induction; [done|].
  cbn. rewrite map_node_data_compose, map_map. f_equal.
  induction IH as [|t ts Ht _ IHts]; [done|]. cbn. by rewrite Ht, IHts.
Qed.



Lemma leaf_count_annotation_map f t :
  leaf_count (annotation_map f t) = leaf_count t.
Proof. unfold leaf_count. by rewrite tree_leaves_annotation_map. Qed.
End annotation_map_facts.

Lemma tree_leaves_tree_map {A B} (k : A → B) (t : pytree A) :
  tree_leaves (tree_map k t) = map k (tree_leaves t).
Proof.
  induction t as [x|d ts IH] using pytree_induction; [done|].
  cbn. rewrite map_map, concat_map, map_map. f_equal.
  induction IH as [|t ts Ht _ IHts]; [done|]. cbn. by rewrite Ht, IHts.
Qed.

Lemma tree_structure_tree_map {A B} (k : A → B) (t : pytree A) :
  tree_structure (tree_map k t) = tree_structure t.
Proof.
  unfold tree_structure.
  induction t as [x|d ts IH] using pytree_induction; [done|].
  cbn. rewrite map_map. f_equal.
  induction IH as [|t ts Ht _ IHts]; [done|]. cbn. by rewrite Ht, IHts.
Qed.

(** ** The two tree-rebuilding helpers *)

Lemma module_update_sound {A} (module other out : pytree A) :
  tree_object.module_update module other = inr out →
  tree_structure out = tree_structure module
  ∧ tree_leaves out = tree_leaves other.
Proof. apply tree_unflatten_sound. Qed.

Lemma module_update_exact {A} (module other : pytree A) :
  leaf_count other = leaf_count module →
  ∃ out, tree_object.module_update module other = inr out
         ∧ tree_structure out = tree_structure module
         ∧ tree_leaves out = tree_leaves other.
Proof.
  intros Hn. apply tree_unflatten_exact.
  by rewrite leaf_count_structure.
Qed.

Lemma tree_map2_exact {A B C} (f : A → B → C) (a : pytree A) (b : pytree B) :
  tree_structure a = tree_structure b →
  ∃ out, tree_map2 f a b = inr out
         ∧ tree_structure out = tree_structure a
         ∧ tree_leaves out = zip_with f (tree_leaves a) (tree_leaves b).
Proof.
  intros Hs. unfold tree_map2.
  rewrite (proj2 (same_structure_spec a b) Hs).
  apply tree_unflatten_exact.
  rewrite leaf_count_structure, length_zip_with.
  pose proof (structure_leaf_count a b Hs) as Hn. unfold leaf_count in *. lia.
Qed.

(** * The store *)

Lemma lookup_snoc (h : store) (o : Optimizer) : (h ++ [o]) !! length h = Some o.
Proof. by rewrite lookup_app_r, Nat.sub_diag. Qed.

Lemma insert_snoc (h : store) (o o' : Optimizer) :
  <[length h := o']> (h ++ [o]) = h ++ [o'].
Proof. by rewrite insert_app_r_alt, Nat.sub_diag. Qed.

Lemma lookup_snoc_old (h : store) (o o' : Optimizer) r :
  h !! r = Some o → (h ++ [o']) !! r = Some o.
Proof. intros H. by rewrite lookup_app_l_Some with (x := o). Qed.

(** * The two methods, step by step *)

(** [init] as a function of the store: the copy is allocated first, so it
    is in the store even when the wrapped [init] raises. *)
Lemma init_unfold self params (h : store) :
  init self params h =
  match h !! self with
  | None => (inl DanglingReference, h)
  | Some o =>
      match optax.init (optimizer o) (to_opt_state params) with
      | inl e => (inl e, h ++ [o])
      | inr s =>
          (inr (length h),
           h ++ [ {| opt_state := s; optimizer := optimizer o;
                     _initialized := true |} ])
      end
  end.
Proof.
  unfold init, copy, mbind, M_bind, bind, load, alloc, modify, lift, mret, M_ret, ret.
  destruct (h !! self) as [o|]; [|done].
  rewrite lookup_snoc.
  destruct (optax.init (optimizer o) (to_opt_state params)) as [e|s]; [done|].
  rewrite lookup_snoc, insert_snoc, lookup_snoc, insert_snoc. done.
Qed.

(** [apply_updates] as a function of the store. The new state is stored as
    soon as the wrapped [update] returns, before the output is built. *)
Lemma apply_updates_unfold self grads params return_updates (h : store) :
  apply_updates self grads params return_updates h =
  match h !! self with
  | None => (inl DanglingReference, h)
  | Some o =>
      match opt_state o with
      | None => (inl AssertionError, h)
      | Some s0 =>
          if negb return_updates && is_None params
          then (inl (ValueError missing_params), h)
          else
            match optax.update (optimizer o) (to_opt_state grads) s0
                    (to_opt_state <$> params) with
            | inl e => (inl e, h)
            | inr (param_updates, s1) =>
                (result_bind
                   (if return_updates then inr param_updates
                    else optax.apply_updates (to_opt_state <$> params)
                           param_updates)
                   (tree_object.module_update grads),
                 <[self := {| opt_state := s1; optimizer := optimizer o;
                              _initialized := _initialized o |}]> h)
            end
      end
  end.
Proof.
  unfold apply_updates, mbind, M_bind, bind, load, modify, lift, mret, M_ret,
    ret, raise.
  destruct (h !! self) as [o|] eqn:Hself; [|done].
  destruct (opt_state o) as [s0|]; [|done].
  destruct (negb return_updates && is_None params); [done|].
  destruct (optax.update _ _ _ _) as [e|[d s1]]; [done|].
  rewrite Hself.
  destruct return_updates; cbn; [done|].
  by destruct (optax.apply_updates _ _).
Qed.

(** * apply_updates *)




(** The store after [apply_updates] does not depend on [return_updates]
    when [params] is given, whatever the wrapped functions do. *)
Lemma apply_updates_store_independent (h : store) self grads params :
  (apply_updates self grads (Some params) false h).2
  = (apply_updates self grads (Some params) true h).2.
Proof.
  rewrite !apply_updates_unfold.
  destruct (h !! self) as [o|]; [|done].
  destruct (opt_state o) as [s0|]; [|done]. cbn.
  by destruct (optax.update _ _ _ _) as [e|[d s1]].
Qed.

(** C2. On an initialised adapter with state [s0], with [params] shaped
    like [grads] and the wrapped [update] returning deltas shaped like the
    gradients it was given, [apply_updates grads params
    return_updates=False] returns, in the tree definition of [grads], the
    leaves of [params] added one by one to the leaves that
    [return_updates=True] returns, and both calls leave the same store
    behind, with the new state of that one [update] call in the adapter. *)
Theorem apply_updates_applies_deltas (h : store) self o s0 grads params d s1 :
  h !! self = Some o →
  opt_state o = Some s0 →
  optax.update (optimizer o) (to_opt_state grads) s0
    (Some (to_opt_state params)) = inr (d, s1) →
  tree_structure d = tree_structure (to_opt_state grads) →
  tree_structure (to_opt_state params) = tree_structure (to_opt_state grads) →
  ∃ out updates h',
    apply_updates self grads (Some params) false h = (inr out, h')
    ∧ apply_updates self grads (Some params) true h = (inr updates, h')
    ∧ h' = <[self := {| opt_state := s1; optimizer := optimizer o;
                        _initialized := _initialized o |}]> h
    ∧ tree_structure out = tree_structure grads
    ∧ tree_leaves out
      = zip_with Qplus (tree_leaves params) (tree_leaves updates).
Proof.
  intros Hself Hs0 Hupd Hd Hp.
  rewrite !apply_updates_unfold, Hself, Hs0. cbn. rewrite Hupd. cbn.
  assert (leaf_count d = leaf_count grads) as Hn.
  { rewrite (structure_leaf_count _ _ Hd). apply leaf_count_annotation_map. }
  destruct (tree_map2_exact Qplus (to_opt_state params) d)
    as (sum & -> & Hss & Hsl); [congruence|]. cbn.
  destruct (module_update_exact grads d Hn) as (updates & -> & _ & Hul).
  destruct (module_update_exact grads sum) as (out & -> & Hos & Hol).
  { rewrite (structure_leaf_count _ _ Hss), (structure_leaf_count _ _ Hp).
    apply leaf_count_annotation_map. }
  eexists out, updates, _.
  repeat split; [done|].
  rewrite Hol, Hsl, Hul. unfold to_opt_state.
  by rewrite tree_leaves_annotation_map.
Qed.

Lemma apply_updates_applies_deltas_witness :
  ∃ out updates h',
    apply_updates 0 (Linear 3 4) (Some (Linear 10 20)) false [traced]
      = (inr out, h')
    ∧ apply_updates 0 (Linear 3 4) (Some (Linear 10 20)) true [traced]
      = (inr updates, h')
    ∧ h' = <[0 := {| opt_state := Some (to_opt_state (Linear 4 6));
                     optimizer := trace 1; _initialized := true |}]> [traced]
    ∧ tree_structure out = tree_structure (Linear 3 4)
    ∧ tree_leaves out
      = zip_with Qplus (tree_leaves (Linear 10 20)) (tree_leaves updates).
Proof.
  apply (apply_updates_applies_deltas [traced] 0 traced
           (to_opt_state (Linear 1 2)) (Linear 3 4) (Linear 10 20)
           (to_opt_state (Linear 4 6)) (Some (to_opt_state (Linear 4 6))));
    reflexivity.
Defined.
(** C3, as amended. On an initialised adapter, [apply_updates grads
    params=None return_updates=False] raises [ValueError] with the message
    "params must be provided if updates are being applied". *)
Theorem apply_updates_missing_params (h : store) self o s0 grads :
  h !! self = Some o →
  opt_state o = Some s0 →
  (apply_updates self grads None false h).1
  = inl (ValueError "params must be provided if updates are being applied").
Proof.
  intros Hself Hs0. by rewrite apply_updates_unfold, Hself, Hs0.
Qed.

Lemma apply_updates_missing_params_witness :
  (apply_updates 0 (Linear 3 4) None false [traced]).1
  = inl (ValueError "params must be provided if updates are being applied").
Proof.
  apply (apply_updates_missing_params [traced] 0 traced
           (to_opt_state (Linear 1 2)) (Linear 3 4)); reflexivity.
Defined.

(** C3, as stated, fails: on an adapter that was constructed and never
    initialised the assertion on the state comes first, and the call with
    [params=None], [return_updates=False] raises [AssertionError]. *)
Lemma apply_updates_missing_params_uninitialised :
  ¬ (∀ (h : store) self o grads,
       h !! self = Some o →
       (apply_updates self grads None false h).1
       = inl (ValueError "params must be provided if updates are being applied")).
Proof.
  intros H.
  specialize (H (__init__ (sgd 1) []).2 0 _ (dict_w 1) eq_refl).
  discriminate H.
Qed.

(** C4. On an adapter whose state is absent, [apply_updates] raises
    [AssertionError] whatever [grads], [params] and [return_updates] are,
    and nothing in the store changes. *)
Theorem apply_updates_before_init (h : store) self o grads params return_updates :
  h !! self = Some o →
  opt_state o = None →
  apply_updates self grads params return_updates h = (inl AssertionError, h).
Proof.
  intros Hself Hs0. by rewrite apply_updates_unfold, Hself, Hs0.
Qed.

Lemma apply_updates_before_init_witness :
  apply_updates 0 (dict_w 1) (Some (dict_w 0)) true (__init__ (sgd 1) []).2
  = (inl AssertionError, (__init__ (sgd 1) []).2).
Proof.
  apply (apply_updates_before_init (__init__ (sgd 1) []).2 0
           {| opt_state := None; optimizer := sgd 1; _initialized := false |});
    reflexivity.
Defined.

(** C10. A call with [params=None] and [return_updates=False] raises and
    leaves the store as it found it: the check comes before the wrapped
    [update] runs, so the state of the adapter does not advance. *)
Theorem apply_updates_missing_params_keeps_state (h : store) self grads :
  (apply_updates self grads None false h).2 = h
  ∧ ∃ e, (apply_updates self grads None false h).1 = inl e.
Proof.
  rewrite apply_updates_unfold.
  destruct (h !! self) as [o|]; [|by eauto].
  destruct (opt_state o); by eauto.
Qed.

(** * init *)


Lemma sgd_annotation_agnostic step_size :
  annotation_agnostic_init (sgd step_size).
Proof. by intros f params. Qed.



(** C6. [init] leaves its receiver as it was: after the call, raising or
    not, the receiver holds the same state, the same flag and the same
    wrapped transformation. *)
Theorem init_keeps_receiver (h : store) self o params :
  h !! self = Some o →
  (init self params h).2 !! self = Some o.
Proof.
  intros Hself. rewrite init_unfold, Hself.
  destruct (optax.init _ _); by apply lookup_snoc_old.
Qed.

Lemma init_keeps_receiver_witness :
  (init 0 (Linear 1 2) [traced]).2 !! 0 = Some traced.
Proof.
  apply (init_keeps_receiver [traced] 0 traced (Linear 1 2)). reflexivity.
Defined.

(** * Shape of the output *)

(** C7, as amended. The output of every call that returns has the tree
    definition of [grads]: node for node the same containers, classes,
    field names and annotations. [params] has no part in it. *)
Theorem apply_updates_mirrors_grads (h h' : store) self grads params
    return_updates out :
  apply_updates self grads params return_updates h = (inr out, h') →
  tree_structure out = tree_structure grads.
Proof.
  rewrite apply_updates_unfold.
  destruct (h !! self) as [o|]; [|done].
  destruct (opt_state o) as [s0|]; [|done].
  destruct (andb _ _); [done|].
  destruct (optax.update _ _ _ _) as [e|[d s1]]; [done|].
  intros [= Hout _].
  destruct (if return_updates then _ else _) as [e|output]; [done|].
  cbn in Hout. by destruct (module_update_sound _ _ _ Hout).
Qed.

Lemma apply_updates_mirrors_grads_witness :
  tree_structure (Linear 14 26) = tree_structure (Linear 3 4).
Proof.
  apply (apply_updates_mirrors_grads [traced]
           [ {| opt_state := Some (to_opt_state (Linear 4 6));
                optimizer := trace 1; _initialized := true |} ]
           0 (Linear 3 4) (Some (Linear 10 20)) false (Linear 14 26)).
  reflexivity.
Defined.

(** C7, as stated, fails: the output does not take the shape of [params]
    when [params] is the richer input. With a bare tuple of gradients and
    a [Linear] object as parameters, on an initialised adapter over plain
    gradient descent, [return_updates=True] returns a bare tuple. *)
Lemma output_ignores_richer_params :
  ¬ (∀ (h h' : store) self grads params return_updates out,
       apply_updates self grads (Some params) return_updates h = (inr out, h') →
       tree_objects grads < tree_objects params →
       tree_structure out = tree_structure params).
Proof.
  intros H.
  specialize (H (init 0 (dict_w 0) (__init__ (sgd 1) []).2).2 _ 1
                (Node PyTuple [Leaf 1%Q; Leaf 2%Q]) (Linear 10 20) true _
                eq_refl).
  vm_compute in H. specialize (H (le_n 1)). discriminate H.
Qed.

(** * The gradient-descent scenario *)

Lemma descent_step (step_size : Q) :
  Qplus 0 (Qmult (Qopp step_size) 1) = Qopp step_size.
Proof.
  destruct step_size as [n d]. unfold Qplus, Qmult, Qopp. cbn.
  f_equal; lia.
Qed.

(** C8. Wrapping plain gradient descent with step size [step_size]:
    after [init({"w": 0})], [apply_updates({"w": 1}, {"w": 0})] returns
    [{"w": -step_size}], and the state is the empty tuple before and after
    the call. This holds from any store. *)
Theorem gradient_descent_example (step_size : Q) (h : store) :
  (gradient_descent_scenario step_size h).1
  = inr (Some (Node PyTuple []), dict_w (Qopp step_size),
         Some (Node PyTuple [])).
Proof.
  unfold gradient_descent_scenario, mbind, M_bind, bind, __init__, alloc.
  rewrite init_unfold, lookup_snoc. cbn.
  unfold load at 1. rewrite lookup_snoc.
  rewrite apply_updates_unfold, lookup_snoc. cbn.
  change (tree_map2 Qplus _ _)
    with (inr (A:=exn) (dict_w (Qplus 0 (Qmult (Qopp step_size) 1)))).
  cbn. unfold load.
  rewrite list_lookup_insert_eq by (rewrite !length_app; cbn; lia).
  cbn. by rewrite descent_step.
Qed.

(** * Lifecycle *)

Lemma client_invariant_exec st c :
  client_invariant st → client_invariant (exec st c).
Proof.
  destruct st as [h made]. intros [Hcons Hmade]. cbn in Hcons, Hmade.
  assert (∀ o', ∀ r og, (r, og) ∈ made →
            ∃ o, (h ++ [o']) !! r = Some o ∧ matches_origin og o) as Hold.
  { intros o' r og Hin. destruct (Hmade r og Hin) as (o & Hr & Ho).
    exists o. split; [by apply lookup_snoc_old|done]. }
  destruct c as [tx|self params|self grads params return_updates]; cbn.
  - (* Optimizer(tx) *)
    split; cbn.
    + apply Forall_app. split; [done|]. apply Forall_singleton.
      by intros [? [=]].
    + intros r og [[= -> ->]|Hin]%elem_of_cons; [|by apply Hold].
      eexists. split; [apply lookup_snoc|]. done.
  - (* init *)
    rewrite init_unfold.
    destruct (h !! self) as [o|] eqn:Hself; [|done].
    assert (consistent o) as Ho by (by eapply Forall_lookup_1).
    destruct (optax.init _ _) as [e|s]; cbn.
    + split; cbn; [|by apply Hold].
      apply Forall_app. split; [done|]. by apply Forall_singleton.
    + split; cbn.
      * apply Forall_app. split; [done|]. by apply Forall_singleton.
      * intros r og [[= -> ->]|Hin]%elem_of_cons; [|by apply Hold].
        eexists. split; [apply lookup_snoc|]. done.
  - (* apply_updates *)
    rewrite apply_updates_unfold.
    destruct (h !! self) as [o|] eqn:Hself; [|done].
    destruct (opt_state o) as [s0|] eqn:Hs0; [|done].
    destruct (andb _ _); [done|].
    destruct (optax.update _ _ _ _) as [e|[d s1]]; [done|]. cbn.
    assert (_initialized o = true) as Hflag.
    { eapply (Forall_lookup_1 consistent); [done..|]. by rewrite Hs0. }
    split; cbn.
    + apply Forall_insert; [done|]. by intros _.
    + intros r og Hin. destruct (Hmade r og Hin) as (o' & Hr & Ho').
      destruct (decide (self = r)) as [->|Hne].
      * rewrite list_lookup_insert_eq by (by eapply lookup_lt_Some).
        eexists. split; [done|].
        assert (o' = o) as -> by congruence.
        destruct og; cbn in *; [|done]. destruct Ho'. congruence.
      * rewrite list_lookup_insert_ne by done. by exists o'.
Qed.




(** * Further properties of the adapter *)

(** The store after a call whose wrapped [update] returned. *)
Lemma apply_updates_store_after (h : store) self o s0 grads params
    return_updates d s1 :
  h !! self = Some o →
  opt_state o = Some s0 →
  negb return_updates && is_None params = false →
  optax.update (optimizer o) (to_opt_state grads) s0 (to_opt_state <$> params)
    = inr (d, s1) →
  (apply_updates self grads params return_updates h).2
  = <[self := {| opt_state := s1; optimizer := optimizer o;
                 _initialized := _initialized o |}]> h.
Proof.
  intros Hself Hs0 Hguard Hupd.
  by rewrite apply_updates_unfold, Hself, Hs0, Hguard, Hupd.
Qed.

(** X1. An error raised by the wrapped [update] comes out of
    [apply_updates] as it is, and the store, the state of the adapter
    included, is left as it was. *)
Theorem apply_updates_update_raises (h : store) self o s0 grads params
    return_updates e :
  h !! self = Some o →
  opt_state o = Some s0 →
  negb return_updates && is_None params = false →
  optax.update (optimizer o) (to_opt_state grads) s0 (to_opt_state <$> params)
    = inl e →
  apply_updates self grads params return_updates h = (inl e, h).
Proof.
  intros Hself Hs0 Hguard Hupd.
  by rewrite apply_updates_unfold, Hself, Hs0, Hguard, Hupd.
Qed.

(** The accumulators of [traced] have the shape of a [Linear]; a gradient
    that is a dictionary does not fit them and [trace] raises. *)
Lemma apply_updates_update_raises_witness :
  apply_updates 0 (dict_w 1) (Some (dict_w 0)) false [traced]
  = (inl TreeError, [traced]).
Proof.
  apply (apply_updates_update_raises [traced] 0 traced
           (to_opt_state (Linear 1 2))); reflexivity.
Defined.

(** X2. The state is assigned before the output is built: when the
    wrapped [update] returns but the parameters do not have the tree
    definition of the deltas, the call with [return_updates=False] raises
    and the receiver nonetheless holds the new state: reading the store
    after the call gives the receiver with the state the wrapped [update]
    returned. *)
Theorem apply_updates_raises_after_step (h : store) self o s0 grads params d s1 :
  h !! self = Some o →
  opt_state o = Some s0 →
  optax.update (optimizer o) (to_opt_state grads) s0
    (Some (to_opt_state params)) = inr (d, s1) →
  tree_structure (to_opt_state params) ≠ tree_structure d →
  ∃ h',
    apply_updates self grads (Some params) false h = (inl TreeError, h')
    ∧ h' !! self = Some {| opt_state := s1; optimizer := optimizer o;
                           _initialized := _initialized o |}.
Proof.
  intros Hself Hs0 Hupd Hne.
  rewrite apply_updates_unfold, Hself, Hs0. cbn. rewrite Hupd. cbn.
  unfold tree_map2.
  destruct (same_structure (to_opt_state params) d) eqn:E.
  { by apply same_structure_spec in E. }
  eexists. split; [done|].
  apply list_lookup_insert_eq. by eapply lookup_lt_Some.
Qed.

Lemma apply_updates_raises_after_step_witness :
  ∃ h',
    apply_updates 0 (Linear 3 4) (Some (dict_w 0)) false [traced]
    = (inl TreeError, h')
    ∧ h' !! 0 = Some {| opt_state := Some (to_opt_state (Linear 4 6));
                        optimizer := trace 1; _initialized := true |}.
Proof.
  apply (apply_updates_raises_after_step [traced] 0 traced
           (to_opt_state (Linear 1 2)) (Linear 3 4) (dict_w 0)
           (to_opt_state (Linear 4 6)) (Some (to_opt_state (Linear 4 6))));
    [reflexivity..|discriminate].
Defined.

(** X3. [apply_updates] touches nothing but the state of its receiver: no
    object is created, every other object is as before, the receiver keeps
    its wrapped transformation and its flag, and a receiver without a
    state stays without one. *)
Theorem apply_updates_frame (h : store) self grads params return_updates :
  let h' := (apply_updates self grads params return_updates h).2 in
  length h' = length h
  ∧ (∀ r, r ≠ self → h' !! r = h !! r)
  ∧ (∀ o, h !! self = Some o →
       ∃ o', h' !! self = Some o'
             ∧ optimizer o' = optimizer o
             ∧ _initialized o' = _initialized o
             ∧ (opt_state o = None → opt_state o' = None)).
Proof.
  cbn. rewrite apply_updates_unfold.
  destruct (h !! self) as [o|] eqn:Hself; [|done].
  destruct (opt_state o) as [s0|] eqn:Hs0;
    [|split_and!; [done..|intros ? [= <-]; by eexists]].
  destruct (andb _ _);
    [split_and!; [done..|intros ? [= <-]; by eexists]|].
  destruct (optax.update _ _ _ _) as [e|[d s1]];
    [split_and!; [done..|intros ? [= <-]; by eexists]|].
  cbn. split_and!.
  - apply length_insert.
  - intros r Hne. by apply list_lookup_insert_ne.
  - intros ? [= <-]. eexists. split.
    + apply list_lookup_insert_eq. by eapply lookup_lt_Some.
    + cbn. by rewrite Hs0.
Qed.

(** X4. [init] changes no object that exists: the store before the call
    is a prefix of the store after it, with at most one object added,
    whether the wrapped [init] returns or raises. *)
Theorem init_frame (h : store) self params :
  h `prefix_of` (init self params h).2
  ∧ length (init self params h).2 ≤ S (length h).
Proof.
  rewrite init_unfold.
  destruct (h !! self) as [o|]; [|cbn; split; [done|lia]].
  destruct (optax.init _ _); cbn; rewrite length_app; cbn;
    (split; [by apply prefix_app_r|lia]).
Qed.

(** X5. Two calls in a row thread the state. When the first wrapped
    [update], run on the state [s0] of the receiver, returns the state
    [s1], and the wrapped [update] run on [s1] with the arguments of the
    second call returns deltas [d2] and the state [s2], then after both
    calls the receiver holds [s2], and the second call, asked for the
    updates, returns the leaves of [d2]: the second [update] was given
    [s1]. This is so whichever output the first call was asked for and
    whether or not building it raised. *)
Theorem apply_updates_twice (h : store) self o s0
    g1 p1 ru1 d1 s1 g2 p2 d2 s2 :
  h !! self = Some o →
  opt_state o = Some s0 →
  negb ru1 && is_None p1 = false →
  optax.update (optimizer o) (to_opt_state g1) s0 (to_opt_state <$> p1)
    = inr (d1, Some s1) →
  optax.update (optimizer o) (to_opt_state g2) s1 (to_opt_state <$> p2)
    = inr (d2, s2) →
  leaf_count d2 = leaf_count g2 →
  ∃ out h'',
    apply_updates self g2 p2 true (apply_updates self g1 p1 ru1 h).2
    = (inr out, h'')
    ∧ tree_leaves out = tree_leaves d2
    ∧ h'' !! self = Some {| opt_state := s2; optimizer := optimizer o;
                            _initialized := _initialized o |}.
Proof.
  intros Hself Hs0 Hg1 Hu1 Hu2 Hcount.
  rewrite (apply_updates_store_after h self o s0 g1 p1 ru1 d1 (Some s1))
    by done.
  rewrite apply_updates_unfold.
  rewrite list_lookup_insert_eq by (by eapply lookup_lt_Some).
  cbn. rewrite Hu2. cbn.
  destruct (module_update_exact g2 d2 Hcount) as (out & -> & _ & Hol).
  eexists out, _. split_and!; [done..|].
  rewrite list_insert_insert_eq.
  apply list_lookup_insert_eq. by eapply lookup_lt_Some.
Qed.

Lemma apply_updates_twice_witness :
  ∃ out h'',
    apply_updates 0 (Linear 3 4) None true
      (apply_updates 0 (Linear 3 4) (Some (Linear 10 20)) false [traced]).2
    = (inr out, h'')
    ∧ tree_leaves out = tree_leaves (to_opt_state (Linear 7 10))
    ∧ h'' !! 0 = Some {| opt_state := Some (to_opt_state (Linear 7 10));
                         optimizer := trace 1; _initialized := true |}.
Proof.
  apply (apply_updates_twice [traced] 0 traced (to_opt_state (Linear 1 2))
           (Linear 3 4) (Some (Linear 10 20)) false
           (to_opt_state (Linear 4 6)) (to_opt_state (Linear 4 6))
           (Linear 3 4) None
           (to_opt_state (Linear 7 10)) (Some (to_opt_state (Linear 7 10))));
    reflexivity.
Defined.

(** Invariants of client states are proved one call at a time. *)
Lemma run_invariant (P : client → Prop) :
  P ([], []) → (∀ st c, P st → P (exec st c)) → ∀ cs, P (run cs).
Proof.
  intros Hinit Hstep cs. unfold run.
  generalize Hinit. generalize (([], []) : client).
  induction cs as [|c cs IH]; intros st Hst; [done|].
  cbn. by apply IH, Hstep.
Qed.

(** X6. A reference returned by the constructor never becomes usable,
    whatever is called afterwards, [init] on that very reference included:
    its [initialized] property reads false and [apply_updates] on it raises
    [AssertionError], leaving the store alone. *)
Theorem constructed_never_usable (cs : list call) r grads params return_updates :
  (r, Constructed) ∈ (run cs).2 →
  (initialized r (run cs).1).1 = inr false
  ∧ apply_updates r grads params return_updates (run cs).1
    = (inl AssertionError, (run cs).1).
Proof.
  intros Hin.
  destruct (run_invariant client_invariant) with (cs := cs) as [_ Hmade].
  { split; [constructor|by intros ?? ?%elem_of_nil]. }
  { apply client_invariant_exec. }
  destruct (Hmade r Constructed Hin) as (o & Hr & Hstate & Hflag).
  split.
  - unfold initialized, mbind, M_bind, bind, load. rewrite Hr. cbn.
    by rewrite Hflag.
  - by rewrite apply_updates_unfold, Hr, Hstate.
Qed.

Lemma constructed_never_usable_witness :
  (initialized 0 (run [New (sgd 1); Init 0 (dict_w 0)]).1).1 = inr false
  ∧ apply_updates 0 (dict_w 1) (Some (dict_w 0)) false
      (run [New (sgd 1); Init 0 (dict_w 0)]).1
    = (inl AssertionError, (run [New (sgd 1); Init 0 (dict_w 0)]).1).
Proof.
  apply (constructed_never_usable [New (sgd 1); Init 0 (dict_w 0)] 0).
  cbn. apply elem_of_cons. right. apply elem_of_cons. by left.
Defined.

Lemma distinct_references_grow h h' made :
  length h ≤ length h' →
  distinct_references (h, made) → distinct_references (h', made).
Proof.
  intros Hle [Hnd Hlt]. split; [done|]. cbn in *.
  eapply Forall_impl; [done|]. cbn. lia.
Qed.

Lemma distinct_references_new (h : store) o made :
  distinct_references (h, made) →
  distinct_references (h ++ [o], (length h, Constructed) :: made)
  ∧ distinct_references (h ++ [o], (length h, Initialised) :: made).
Proof.
  intros [Hnd Hlt]. cbn in *.
  assert (length h ∉ made.*1) as Hfresh.
  { intros Hin. rewrite Forall_forall in Hlt. specialize (Hlt _ Hin). lia. }
  assert (Forall (λ r, r < length (h ++ [o])) made.*1) as Hlt'.
  { eapply Forall_impl; [done|]. cbn. intros. rewrite length_app. lia. }
  split; (split; cbn;
    [by apply NoDup_cons|apply Forall_cons; split; [rewrite length_app; cbn; lia|done]]).
Qed.

Lemma distinct_references_exec st c :
  distinct_references st → distinct_references (exec st c).
Proof.
  destruct st as [h made]. intros Hst.
  destruct c as [tx|self params|self grads params return_updates]; cbn.
  - by apply distinct_references_new.
  - rewrite init_unfold.
    destruct (h !! self) as [o|]; [|done].
    destruct (optax.init _ _); cbn.
    + eapply distinct_references_grow; [|done]. rewrite length_app. lia.
    + by apply distinct_references_new.
  - eapply distinct_references_grow; [|done].
    rewrite apply_updates_unfold.
    destruct (h !! self) as [o|]; [|done].
    destruct (opt_state o); [|done].
    destruct (andb _ _); [done|].
    destruct (optax.update _ _ _ _) as [e|[d s1]]; [done|].
    cbn. by rewrite length_insert.
Qed.

(** X7. No two adapters handed to the caller are the same object: along
    any sequence of calls, the references returned by the constructor and
    by [init] are pairwise distinct, and each denotes an object of the
    store. *)
Theorem references_distinct (cs : list call) :
  NoDup (run cs).2.*1
  ∧ ∀ r og, (r, og) ∈ (run cs).2 → is_Some ((run cs).1 !! r).
Proof.
  destruct (run_invariant distinct_references) with (cs := cs) as [Hnd Hlt].
  { split; constructor. }
  { apply distinct_references_exec. }
  split; [done|]. intros r og Hin. apply lookup_lt_is_Some.
  rewrite Forall_forall in Hlt. apply Hlt.
  apply list_elem_of_fmap. by exists (r, og).
Qed.


(** X13. The state is whatever the wrapped [init] returns. When it
    returns [None], the adapter that [init] hands back reads
    [initialized] true and has no state, and every [apply_updates] on it
    raises [AssertionError]. *)
Theorem init_with_none_state (h : store) self o params :
  h !! self = Some o →
  optax.init (optimizer o) (to_opt_state params) = inr None →
  ∃ r h',
    init self params h = (inr r, h')
    ∧ (initialized r h').1 = inr true
    ∧ ∀ grads params' return_updates,
        apply_updates r grads params' return_updates h'
        = (inl AssertionError, h').
Proof.
  intros Hself Hinit. rewrite init_unfold, Hself, Hinit.
  eexists _, _. split; [done|]. split.
  - unfold initialized, mbind, M_bind, bind, load. by rewrite lookup_snoc.
  - intros grads params' return_updates.
    by rewrite apply_updates_unfold, lookup_snoc.
Qed.

Lemma init_with_none_state_witness :
  ∃ r h',
    init 0 (dict_w 0) (__init__ stateless []).2 = (inr r, h')
    ∧ (initialized r h').1 = inr true
    ∧ ∀ grads params' return_updates,
        apply_updates r grads params' return_updates h'
        = (inl AssertionError, h').
Proof.
  apply (init_with_none_state (__init__ stateless []).2 0
           {| opt_state := None; optimizer := stateless;
              _initialized := false |} (dict_w 0)); reflexivity.
Defined.

(** X14. The same holds of the wrapped [update]: when it returns [None]
    as the new state, the receiver is left without a state, its flag as it
    was, and every later [apply_updates] on it raises [AssertionError]. *)
Theorem apply_updates_with_none_state (h : store) self o s0 grads params
    return_updates d :
  h !! self = Some o →
  opt_state o = Some s0 →
  negb return_updates && is_None params = false →
  optax.update (optimizer o) (to_opt_state grads) s0 (to_opt_state <$> params)
    = inr (d, None) →
  let h' := (apply_updates self grads params return_updates h).2 in
  h' !! self = Some {| opt_state := None; optimizer := optimizer o;
                       _initialized := _initialized o |}
  ∧ ∀ grads' params' return_updates',
      apply_updates self grads' params' return_updates' h'
      = (inl AssertionError, h').
Proof.
  intros Hself Hs0 Hguard Hupd. cbn.
  rewrite (apply_updates_store_after h self o s0 grads params return_updates
             d None) by done.
  assert (<[self := {| opt_state := None; optimizer := optimizer o;
                       _initialized := _initialized o |}]> h !! self
          = Some {| opt_state := None; optimizer := optimizer o;
                    _initialized := _initialized o |}) as Hafter.
  { apply list_lookup_insert_eq. by eapply lookup_lt_Some. }
  split; [done|]. intros grads' params' return_updates'.
  by rewrite apply_updates_unfold, Hafter.
Qed.

Lemma apply_updates_with_none_state_witness :
  let h' := (apply_updates 0 (dict_w 1) (Some (dict_w 0)) false
               [ {| opt_state := Some (Node PyTuple []);
                    optimizer := stateless; _initialized := true |} ]).2 in
  h' !! 0 = Some {| opt_state := None; optimizer := stateless;
                    _initialized := true |}
  ∧ ∀ grads' params' return_updates',
      apply_updates 0 grads' params' return_updates' h'
      = (inl AssertionError, h').
Proof.
  apply (apply_updates_with_none_state
           [ {| opt_state := Some (Node PyTuple []);
                optimizer := stateless; _initialized := true |} ]
           0 {| opt_state := Some (Node PyTuple []);
                optimizer := stateless; _initialized := true |}
           (Node PyTuple []) (dict_w 1) (Some (dict_w 0)) false (dict_w 1));
    reflexivity.
Defined.

(** * The code generator *)

Lemma find_markers_from_app k l1 l2 st :
  find_markers_from k (l1 ++ l2) st
  = find_markers_from (k + length l1) l2 (find_markers_from k l1 st).
Proof.
  revert k st. induction l1 as [|line l1 IH]; intros k st; cbn.
  - by rewrite Nat.add_0_r.
  - rewrite IH. f_equal. lia.
Qed.

(** Once both positions are known the loop changes nothing. *)
Lemma find_markers_from_done k lines (a b : Z) :
  a ≠ (-1)%Z → b ≠ (-1)%Z → find_markers_from k lines (a, b) = (a, b).
Proof.
  intros Ha Hb. revert k. induction lines as [|line lines IH]; intros k; [done|].
  cbn. rewrite !bool_decide_eq_false_2, !andb_false_r by done. apply IH.
Qed.

Lemma find_markers_from_no_start k lines (a b : Z) :
  Forall (λ line, ¬ has_start line) lines →
  (find_markers_from k lines (a, b)).1 = a.
Proof.
  intros Hno. revert k b.
  induction Hno as [|line lines Hline _ IH]; intros k b; [done|].
  cbn. apply not_true_is_false in Hline. unfold has_start in *.
  rewrite Hline. cbn. destruct (andb _ _); apply IH.
Qed.

Lemma find_markers_from_no_end k lines (a b : Z) :
  Forall (λ line, ¬ has_end line) lines →
  (find_markers_from k lines (a, b)).2 = b.
Proof.
  intros Hno. revert k a.
  induction Hno as [|line lines Hline _ IH]; intros k a; [done|].
  cbn. apply not_true_is_false in Hline. unfold has_end in *.
  rewrite Hline. cbn. destruct (andb _ _); apply IH.
Qed.

(** With the start known, lines without the end marker change nothing;
    with the end known, lines without the start marker change nothing. *)
Lemma find_markers_from_started k lines (a b : Z) :
  a ≠ (-1)%Z → Forall (λ line, ¬ has_end line) lines →
  find_markers_from k lines (a, b) = (a, b).
Proof.
  intros Ha Hno. revert k.
  induction Hno as [|line lines Hline _ IH]; intros k; [done|].
  cbn. apply not_true_is_false in Hline. unfold has_end in *.
  rewrite Hline, bool_decide_eq_false_2, andb_false_r by done. apply IH.
Qed.

Lemma find_markers_from_ended k lines (a b : Z) :
  b ≠ (-1)%Z → Forall (λ line, ¬ has_start line) lines →
  find_markers_from k lines (a, b) = (a, b).
Proof.
  intros Hb Hno. revert k.
  induction Hno as [|line lines Hline _ IH]; intros k; [done|].
  cbn. apply not_true_is_false in Hline. unfold has_start in *.
  rewrite Hline, (bool_decide_eq_false_2 (b = _)), andb_false_r by done.
  apply IH.
Qed.

Lemma find_markers_from_none k lines st :
  Forall (λ line, ¬ has_start line ∧ ¬ has_end line) lines →
  find_markers_from k lines st = st.
Proof.
  intros Hno. revert k.
  induction Hno as [|line lines [Hs He] _ IH]; intros k; [done|].
  cbn. apply not_true_is_false in Hs, He. unfold has_start, has_end in *.
  destruct st as [a b]. cbn. rewrite Hs, He. apply IH.
Qed.

Lemma find_markers_step_start idx line (b : Z) :
  has_start line →
  find_markers_step ((-1)%Z, b) idx line = (Z.of_nat idx, b).
Proof.
  unfold has_start, find_markers_step. intros ->.
  by rewrite bool_decide_eq_true_2.
Qed.

Lemma find_markers_step_end idx line (a : Z) :
  a ≠ (-1)%Z ∨ ¬ has_start line →
  has_end line →
  find_markers_step (a, (-1)%Z) idx line = (a, Z.of_nat idx).
Proof.
  unfold has_start, has_end, find_markers_step. intros Ha ->.
  rewrite (bool_decide_eq_true_2 ((-1)%Z = _)) by done.
  destruct Ha as [Ha|Ha].
  - by rewrite bool_decide_eq_false_2, andb_false_r.
  - apply not_true_is_false in Ha. by rewrite Ha.
Qed.

(** The markers of a file laid out as the generator expects. *)
Lemma find_markers_well_formed pre start_line old end_line post :
  Forall (λ line, ¬ has_start line ∧ ¬ has_end line) pre →
  has_start start_line →
  Forall (λ line, ¬ has_end line) old →
  has_end end_line →
  find_markers_from 0 (pre ++ [start_line] ++ old ++ [end_line] ++ post)
    (-1, -1)%Z
  = (Z.of_nat (length pre), Z.of_nat (length pre + 1 + length old)).
Proof.
  intros Hpre Hstart Hold Hend.
  rewrite find_markers_from_app, (find_markers_from_none 0 pre) by done.
  cbn [app find_markers_from]. rewrite find_markers_step_start by done.
  rewrite find_markers_from_app, (find_markers_from_started _ old)
    by (done || lia).
  cbn [app find_markers_from].
  rewrite find_markers_step_end by (done || (left; lia)).
  rewrite find_markers_from_done by lia.
  f_equal; lia.
Qed.

Lemma regenerate_well_formed pre start_line old end_line post gen_lines :
  Forall (λ line, ¬ has_start line ∧ ¬ has_end line) pre →
  has_start start_line →
  Forall (λ line, ¬ has_end line) old →
  has_end end_line →
  regenerate (pre ++ [start_line] ++ old ++ [end_line] ++ post) gen_lines
  = inr (pre ++ [start_line] ++ gen_lines ++ [end_line] ++ post).
Proof.
  intros Hpre Hstart Hold Hend. unfold regenerate.
  rewrite find_markers_well_formed by done.
  rewrite !bool_decide_eq_false_2 by lia. cbn [orb].
  f_equal.
  replace (Z.to_nat (Z.of_nat (length pre) + 1)) with (length (pre ++ [start_line]))
    by (rewrite length_app; cbn; lia).
  replace (Z.to_nat (Z.of_nat (length pre + 1 + length old)))
    with (length (pre ++ [start_line] ++ old))
    by (rewrite !length_app; cbn; lia).
  assert (take (length (pre ++ [start_line]))
            (pre ++ [start_line] ++ old ++ [end_line] ++ post)
          = pre ++ [start_line]) as ->.
  { rewrite (app_assoc pre [start_line]). apply take_app_length. }
  assert (drop (length (pre ++ [start_line] ++ old))
            (pre ++ [start_line] ++ old ++ [end_line] ++ post)
          = [end_line] ++ post) as ->.
  { rewrite <- (drop_app_length (pre ++ [start_line] ++ old)
                  ([end_line] ++ post)) at 2.
    by rewrite <- !app_assoc. }
  by rewrite <- !app_assoc.
Qed.

Ltac decide_markers :=
  repeat first
    [ apply Forall_nil_2
    | apply Forall_cons_2
    | split
    | (intros H; vm_compute in H; discriminate H)
    | (vm_compute; reflexivity) ].

(** X8. In a file where the start marker comes first and the end marker
    after it, [regenerate] keeps every line up to and including the start
    marker line and every line from the end marker line on, and puts the
    generated lines in place of what was between them. Running it again on
    its own output, with generated lines that do not contain the end
    marker, gives that output back. *)
Theorem regenerate_replaces_block pre start_line old end_line post gen_lines :
  Forall (λ line, ¬ has_start line ∧ ¬ has_end line) pre →
  has_start start_line →
  Forall (λ line, ¬ has_end line) old →
  has_end end_line →
  let out := pre ++ [start_line] ++ gen_lines ++ [end_line] ++ post in
  regenerate (pre ++ [start_line] ++ old ++ [end_line] ++ post) gen_lines
  = inr out
  ∧ (Forall (λ line, ¬ has_end line) gen_lines →
     regenerate out gen_lines = inr out).
Proof.
  intros Hpre Hstart Hold Hend out. split.
  - by apply regenerate_well_formed.
  - intros Hgen. by apply regenerate_well_formed.
Qed.

Lemma regenerate_replaces_block_witness :
  let out := ["import optax"] ++ ["# <<<CODEGEN START>>>"]
             ++ ["def adam(): ..."; "def sgd(): ..."]
             ++ ["# <<<CODEGEN END>>>"] ++ ["# done"] in
  regenerate (["import optax"] ++ ["# <<<CODEGEN START>>>"] ++ ["def old(): ..."]
              ++ ["# <<<CODEGEN END>>>"] ++ ["# done"])
    ["def adam(): ..."; "def sgd(): ..."]
  = inr out
  ∧ (Forall (λ line, ¬ has_end line) ["def adam(): ..."; "def sgd(): ..."] →
     regenerate out ["def adam(): ..."; "def sgd(): ..."] = inr out).
Proof.
  apply (regenerate_replaces_block ["import optax"] "# <<<CODEGEN START>>>"
           ["def old(): ..."] "# <<<CODEGEN END>>>" ["# done"]
           ["def adam(): ..."; "def sgd(): ..."]); decide_markers.
Defined.

(** X9. [regenerate] raises [RuntimeError] when no line holds the start
    marker, and also when no line other than the first start marker line
    holds the end marker: an end marker on the start marker's own line is
    not seen. *)
Theorem regenerate_missing_marker lines gen_lines :
  Forall (λ line, ¬ has_start line) lines
  ∨ (∃ pre start_line post,
       lines = pre ++ [start_line] ++ post
       ∧ Forall (λ line, ¬ has_start line ∧ ¬ has_end line) pre
       ∧ has_start start_line
       ∧ Forall (λ line, ¬ has_end line) post) →
  regenerate lines gen_lines
  = inl (RuntimeError "Cannot find codegen start/end").
Proof.
  unfold regenerate.
  intros [Hno|(pre & start_line & post & -> & Hpre & Hstart & Hpost)].
  - pose proof (find_markers_from_no_start 0 lines (-1) (-1) Hno) as Hs.
    destruct (find_markers_from 0 lines _) as [a b]. cbn in Hs. subst a.
    by rewrite bool_decide_eq_true_2.
  - rewrite find_markers_from_app, (find_markers_from_none 0 pre) by done.
    cbn [app find_markers_from]. rewrite find_markers_step_start by done.
    rewrite find_markers_from_started by (done || lia).
    rewrite (bool_decide_eq_true_2 (-1 < 0)%Z) by done.
    by rewrite orb_true_r.
Qed.

Lemma regenerate_missing_marker_witness :
  regenerate ["a"; "# <<<CODEGEN START>>> <<<CODEGEN END>>>"; "z"] ["g"]
  = inl (RuntimeError "Cannot find codegen start/end").
Proof.
  apply (regenerate_missing_marker
           ["a"; "# <<<CODEGEN START>>> <<<CODEGEN END>>>"; "z"] ["g"]).
  right. exists ["a"], "# <<<CODEGEN START>>> <<<CODEGEN END>>>", ["z"].
  decide_markers.
Defined.

(** X10. The order of the two markers is not checked. When the end marker
    line comes before the start marker line, nothing is raised: the output
    is everything up to the start marker line, the generated lines, and
    then everything from the end marker line on, so the lines from the end
    marker to the start marker are there twice. *)
Theorem regenerate_reversed_markers pre end_line mid start_line post gen_lines :
  Forall (λ line, ¬ has_start line ∧ ¬ has_end line) pre →
  has_end end_line →
  ¬ has_start end_line →
  Forall (λ line, ¬ has_start line) mid →
  has_start start_line →
  regenerate (pre ++ [end_line] ++ mid ++ [start_line] ++ post) gen_lines
  = inr ((pre ++ [end_line] ++ mid ++ [start_line])
         ++ gen_lines
         ++ ([end_line] ++ mid ++ [start_line] ++ post)).
Proof.
  intros Hpre Hend Hnostart Hmid Hstart. unfold regenerate.
  rewrite find_markers_from_app, (find_markers_from_none 0 pre) by done.
  cbn [app find_markers_from].
  rewrite find_markers_step_end by (done || by right).
  rewrite find_markers_from_app, (find_markers_from_ended _ mid)
    by (done || lia).
  cbn [app find_markers_from]. rewrite find_markers_step_start by done.
  rewrite find_markers_from_done by lia.
  rewrite !bool_decide_eq_false_2 by lia. cbn [orb]. f_equal.
  replace (Z.to_nat (Z.of_nat (S (0 + length pre) + length mid) + 1))
    with (length (pre ++ [end_line] ++ mid ++ [start_line]))
    by (rewrite ?length_app; cbn; rewrite ?length_app; cbn; lia).
  replace (Z.to_nat (Z.of_nat (0 + length pre))) with (length pre) by lia.
  assert (take (length (pre ++ [end_line] ++ mid ++ [start_line]))
            (pre ++ end_line :: mid ++ start_line :: post)
          = pre ++ [end_line] ++ mid ++ [start_line]) as ->.
  { rewrite <- (take_app_length (pre ++ [end_line] ++ mid ++ [start_line])
                  post) at 2.
    f_equal. by rewrite <- !app_assoc. }
  by rewrite drop_app_length.
Qed.

Lemma regenerate_reversed_markers_witness :
  regenerate (["a"] ++ ["# <<<CODEGEN END>>>"] ++ ["old"]
              ++ ["# <<<CODEGEN START>>>"] ++ ["z"]) ["g"]
  = inr ((["a"] ++ ["# <<<CODEGEN END>>>"] ++ ["old"]
          ++ ["# <<<CODEGEN START>>>"])
         ++ ["g"]
         ++ (["# <<<CODEGEN END>>>"] ++ ["old"]
             ++ ["# <<<CODEGEN START>>>"] ++ ["z"])).
Proof.
  apply (regenerate_reversed_markers ["a"] "# <<<CODEGEN END>>>" ["old"]
           "# <<<CODEGEN START>>>" ["z"] ["g"]); decide_markers.
Defined.

Lemma split_newline_nonempty s : split_newline s ≠ [].
Proof.
  destruct s as [|c s]; cbn; [done|].
  case_bool_decide; [done|]. by destruct (split_newline s).
Qed.

Lemma split_newline_newline s :
  split_newline (String newline s) = EmptyString :: split_newline s.
Proof. cbn. by rewrite bool_decide_eq_true_2. Qed.

Lemma split_newline_String c s first rest :
  c ≠ newline →
  split_newline s = first :: rest →
  split_newline (String c s) = String c first :: rest.
Proof. intros Hc Hs. cbn. by rewrite bool_decide_eq_false_2, Hs. Qed.

Lemma split_newline_indented s first rest :
  split_newline s = first :: rest →
  split_newline (String newline "      " +:+ s)
  = EmptyString :: ("      " +:+ first) :: rest.
Proof.
  intros Hs. cbv [String.append]. rewrite split_newline_newline. f_equal.
  do 6 (apply split_newline_String; [done|]). done.
Qed.

(** X11. [_correct_doc] keeps the lines of a docstring and their number:
    the first line is as it was, and every later line is the old line with
    six spaces in front. *)
Theorem correct_doc_indents (doc : string) :
  ∃ first rest,
    split_newline doc = first :: rest
    ∧ split_newline (_correct_doc doc)
      = first :: map (String.append "      ") rest.
Proof.
  induction doc as [|c doc (first & rest & Hdoc & IH)].
  - by exists EmptyString, [].
  - unfold _correct_doc in *. cbn [split_newline replace_newline].
    case_bool_decide as Hc.
    + exists EmptyString, (first :: rest). split; [by rewrite Hdoc|].
      by apply split_newline_indented.
    + exists (String c first), rest. cbn [split_newline].
      rewrite bool_decide_eq_false_2 by done. by rewrite Hdoc, IH.
Qed.

(** X12. With member names that are all different, as [inspect.getmembers]
    gives them, [_all_gradient_transformation] has an entry under a name
    exactly when the member of that name is a function whose return
    annotation is the gradient transformation type, and the entry is that
    function with its own signature. *)
Theorem all_gradient_transformation_lookup `{Inspect}
    (members : list (string * py_object)) name obj sig :
  NoDup members.*1 →
  _all_gradient_transformation members !! name = Some (obj, sig)
  ↔ (name, obj) ∈ members
    ∧ isfunction obj = true
    ∧ return_annotation (signature obj) = GradientTransformationType
    ∧ sig = signature obj.
Proof.
  unfold _all_gradient_transformation.
  induction members as [|[n o] members IH] using rev_ind; intros Hnd.
  - cbn. rewrite lookup_empty. split; [done|]. by intros [?%elem_of_nil _].
  - rewrite fmap_app in Hnd. apply NoDup_app in Hnd as (Hnd & Hfresh & _).
    specialize (IH Hnd).
    assert (n ∉ members.*1) as Hn.
    { intros Hin. apply (Hfresh n Hin). cbn. apply elem_of_cons. by left. }
    assert (∀ o', (n, o') ∉ members) as Hn'.
    { intros o' Hin. apply Hn. apply list_elem_of_fmap. by exists (n, o'). }
    rewrite foldl_app. cbn [foldl].
    rewrite elem_of_app, list_elem_of_singleton.
    destruct (decide (name = n)) as [->|Hne].
    + destruct (isfunction o) eqn:Hf;
        [case_bool_decide as Hr; [rewrite lookup_insert_eq|]|].
      * split.
        -- intros [= <- <-]. split_and!; try done. by right.
        -- intros ([Hin|[= <-]] & _ & _ & ->); [by destruct (Hn' obj)|done].
      * rewrite IH. split.
        -- intros [Hin _]. by destruct (Hn' obj).
        -- intros ([Hin|[= <-]] & _ & Hr' & _); [by destruct (Hn' obj)|done].
      * rewrite IH. split.
        -- intros [Hin _]. by destruct (Hn' obj).
        -- intros ([Hin|[= <-]] & Hf' & _); [by destruct (Hn' obj)|congruence].
    + destruct (isfunction o); [case_bool_decide|];
        rewrite ?lookup_insert_ne by done; rewrite IH;
        (split; [intros [Hin ?]; split; [by left|done]
                |intros [[Hin|[= ? _]] ?]; [done|congruence]]).
Qed.

Lemma all_gradient_transformation_lookup_witness :
  @_all_gradient_transformation example_inspect
    [("GradientTransformation", None);
     ("adam", Some "GradientTransformation");
     ("apply_updates", Some "Params");
     ("sgd", Some "GradientTransformation")] !! "sgd"
  = Some (Some "GradientTransformation", "GradientTransformation")
  ↔ ("sgd", Some "GradientTransformation")
      ∈ [("GradientTransformation", None);
         ("adam", Some "GradientTransformation");
         ("apply_updates", Some "Params");
         ("sgd", Some "GradientTransformation")]
    ∧ bool_decide (is_Some (Some "GradientTransformation")) = true
    ∧ "GradientTransformation" = "GradientTransformation"
    ∧ "GradientTransformation" = "GradientTransformation".
Proof.
  apply (@all_gradient_transformation_lookup example_inspect
           [("GradientTransformation", None);
            ("adam", Some "GradientTransformation");
            ("apply_updates", Some "Params");
            ("sgd", Some "GradientTransformation")]
           "sgd" (Some "GradientTransformation") "GradientTransformation").
  apply (bool_decide_unpack _). by vm_compute.
Defined.
